(** * bevry/hooks: the React hooks of [source/index.ts]

    A shallow embedding of [useInterval] (the effect that resolves the
    interval and arms the one-shot timer) and of [useKeyPress] /
    [useEscapeKey] (the keyboard listeners), followed by the properties
    the specification states about them.

    Numbers are the integer Durations of the specification, embedded as
    [Z].  Comparisons and assignments are those of JavaScript for every
    integer a Number can hold; the default sort compares numerals, and
    [Number::toString] is the exact decimal numeral for the safe integers
    (up to [MAX_SAFE_INTEGER]), so what is proved about the order chosen
    by [sort()] is stated for arrays of such elements.  Arrays live in a
    heap and are passed by reference, as in JavaScript, so that the
    in-place [Array.prototype.sort] is visible. *)

From stdpp Require Import gmap strings list sorting pretty.

Local Open Scope Z_scope.

(** ** JavaScript values *)

Definition loc := positive.

(** What the variable [interval] can hold once it is no longer an array:
    a number, or [undefined] (the result of indexing past the end). *)
Inductive scalar :=
  | Undefined
  | Number (n : Z).

(** [number | number[]], plus the [undefined] that line 28 can store. *)
Inductive value :=
  | Scalar (s : scalar)
  | ArrayRef (l : loc).

Global Instance scalar_eq_dec : EqDecision scalar.
Proof. solve_decision. Defined.
Global Instance value_eq_dec : EqDecision value.
Proof. solve_decision. Defined.

(** [Number.MAX_SAFE_INTEGER], 2^53 - 1: up to it every integer is a
    Number and [Number::toString] prints its exact decimal numeral. *)
Definition MAX_SAFE_INTEGER : Z := 9007199254740991.

(** The store of [number[]] objects. *)
Abbreviation heap := (gmap loc (list Z)).

(** ** The array primitives used by [useInterval] *)

Module Array.

(** [a.length] *)
Definition length (h : heap) (l : loc) : option nat :=
  xs ← h !! l; Some (List.length xs).

(** [a.filter(p)]: allocates a new array, the receiver is only read. *)
Definition filter (P : Z → Prop) `{∀ x, Decision (P x)}
    (h : heap) (l : loc) : option (heap * loc) :=
  xs ← h !! l;
  let l' := fresh (dom h) in
  Some (<[l' := base.filter P xs]> h, l').

(** The default comparison of [a.sort()]: elements are compared through
    their string conversions, by code unit.  The conversion is the exact
    decimal numeral, which is [Number::toString] for elements up to
    [MAX_SAFE_INTEGER]; beyond it JavaScript prints rounded digits or an
    exponent, and the order can differ. *)
Definition SortCompare_le (x y : Z) : Prop :=
  String.le (pretty x) (pretty y).

Global Instance SortCompare_le_dec : RelDecision SortCompare_le.
Proof. intros x y. unfold SortCompare_le. apply _. Defined.

(** [a.sort()]: sorts the receiver in place and returns it. *)
Definition sort (h : heap) (l : loc) : option (heap * loc) :=
  xs ← h !! l;
  Some (<[l := merge_sort SortCompare_le xs]> h, l).

(** [a[i]]: [undefined] past the end. *)
Definition get (h : heap) (l : loc) (i : nat) : option scalar :=
  xs ← h !! l;
  Some (from_option Number Undefined (xs !! i)).

End Array.

(** [v < n] for a number [n]: [undefined] converts to [NaN], and every
    comparison with [NaN] is false. *)
Definition js_lt (v : scalar) (n : Z) : bool :=
  match v with
  | Undefined => false
  | Number m => bool_decide (m < n)
  end.

(** ** [useInterval] *)

(** The variables the effect closes over.  [interval] is assigned to by
    the effect itself. *)
Record Closure := mkClosure {
  interval : value;
  threshold : Z;
  iterations : Z;
}.

(** [setTimeout(() => setIterations(iterations + 1), delay)] *)
Record Timer := mkTimer {
  delay : scalar;
  setIterations : Z;
}.

Definition set_interval (c : Closure) (s : scalar) : Closure :=
  {| interval := Scalar s; threshold := threshold c;
     iterations := iterations c |}.

(** Lines 31-40: the part of the effect after the array has been reduced
    to a single value.  The result is the closure as the effect leaves it
    and the timer it armed, if any. *)
Definition arm (c : Closure) (s : scalar) : Closure * option Timer :=
  if js_lt s 0 then (set_interval c s, None)
  else
    let s' := if js_lt s (threshold c) then Number (threshold c) else s in
    (set_interval c s',
     Some {| delay := s'; setIterations := iterations c + 1 |}).

(** Lines 23-41: the function passed to [useEffect].  [None] stands for a
    reference to no array, which no JavaScript state contains. *)
Definition useInterval_effect (h : heap) (c : Closure)
    : option (heap * Closure * option Timer) :=
  match interval c with
  | ArrayRef l =>
      n ← Array.length h l;
      if decide (n = 0%nat) then Some (h, c, None)
      else
        '(h1, l1) ← Array.filter (λ ms, 0 ≤ ms) h l;
        '(h2, l2) ← Array.sort h1 l1;
        s ← Array.get h2 l2 0%nat;
        Some (h2, (arm c s).1, (arm c s).2)
  | Scalar s => Some (h, (arm c s).1, (arm c s).2)
  end.

(** The effective Duration handed to the timer primitive. *)
Inductive Resolution :=
  | NoTimer
  | Delay (d : scalar).

Definition resolution (r : heap * Closure * option Timer) : Resolution :=
  match r.2 with
  | None => NoTimer
  | Some t => Delay (delay t)
  end.

Definition resolve (h : heap) (c : Closure) : option Resolution :=
  resolution <$> useInterval_effect h c.

(** The steps of the effect on the contents of the array and on the
    single value, for stating what [resolve] computes. *)

(** [interval.filter(ms => ms >= 0).sort()[0]] on the contents. *)
Definition picked (xs : list Z) : scalar :=
  from_option Number Undefined
    (merge_sort Array.SortCompare_le (base.filter (λ ms, 0 ≤ ms) xs) !! 0%nat).

(** The heap the array branch leaves behind: one new array, the filtered
    copy, sorted. *)
Definition heap_after (h : heap) (xs : list Z) : heap :=
  <[fresh (dom h) :=
      merge_sort Array.SortCompare_le (base.filter (λ ms, 0 ≤ ms) xs)]> h.

(** Lines 31 and 33 as a function of the single value and the threshold. *)
Definition resolve_scalar (t : Z) (s : scalar) : Resolution :=
  if js_lt s 0 then NoTimer
  else Delay (if js_lt s t then Number t else s).

(** What the caller passed, read through the heap: the value of a
    number, the contents of an array. *)
Inductive Input :=
  | Single (d : scalar)
  | Multiple (ds : list Z).

Definition read_input (h : heap) (v : value) : option Input :=
  match v with
  | Scalar s => Some (Single s)
  | ArrayRef l => Multiple <$> h !! l
  end.

(** The sentence of the documentation, "if an array, then the smallest
    non-negative number is used", as a function of its own: it is what
    the code is compared with, not part of the embedding. *)
Definition smallest_non_negative (ds : list Z) : option Z :=
  match base.filter (λ ms, 0 ≤ ms) ds with
  | [] => None
  | d :: ds' => Some (foldr Z.min d ds')
  end.

(** The invariant of the data model: no timer, or a delay that is a
    number, at least the threshold and at least zero. *)
Definition effective (t : Z) (r : Resolution) : Prop :=
  match r with
  | NoTimer => True
  | Delay Undefined => False
  | Delay (Number n) => t ≤ n ∧ 0 ≤ n
  end.

(** ** The keyboard hooks *)

Record KeyboardEvent := mkKeyboardEvent {
  keyCode : Z;
  shiftKey : bool;
  metaKey : bool;
  altKey : bool;
  ctrlKey : bool;
}.

Section keyboard.
(** What a callback does when it is invoked, as a trace of actions. *)
Context {A : Type}.

(** A function object: its identity, which [removeEventListener]
    compares, and its body. *)
Record Listener := mkListener {
  ident : positive;
  body : KeyboardEvent → list A;
}.

(** The listeners of [document], by event type, in registration order. *)
Abbreviation Document := (gmap string (list Listener)).

Definition listeners (doc : Document) (type : string) : list Listener :=
  default [] (doc !! type).

(** [document.addEventListener(type, f)]: a listener already registered
    for the type is not added again. *)
Definition addEventListener (type : string) (f : Listener)
    (doc : Document) : Document :=
  if decide (ident f ∈ ident <$> listeners doc type) then doc
  else <[type := listeners doc type ++ [f]]> doc.

(** [document.removeEventListener(type, f)] *)
Definition removeEventListener (type : string) (f : Listener)
    (doc : Document) : Document :=
  match doc !! type with
  | Some fs => <[type := base.filter (λ g, ident g ≠ ident f) fs]> doc
  | None => doc
  end.

(** An event of the given type reaches [document]: every listener of
    the type runs, in order. *)
Definition dispatchEvent (type : string) (e : KeyboardEvent)
    (doc : Document) : list A :=
  f ← listeners doc type; body f e.

(** Lines 75-82.  The effect registers the callback and returns the
    cleanup that removes it. *)
Definition useKeyPress (callback : Listener) (doc : Document)
    : Document * (Document → Document) :=
  (addEventListener "keypress" callback doc,
   removeEventListener "keypress" callback).

(** Lines 88-92.  [fn] is the identity of the function expression
    handed to [useKeyPress]. *)
Definition useEscapeKey (fn : positive)
    (callback : KeyboardEvent → list A) (doc : Document)
    : Document * (Document → Document) :=
  useKeyPress
    {| ident := fn;
       body := λ e, if decide (keyCode e = 27) then callback e else [] |}
    doc.

(** Lines 50-59.  The effect registers the callback for key-down and for
    key-up; the cleanup removes both registrations. *)
Definition useKey (callback : Listener) (doc : Document)
    : Document * (Document → Document) :=
  (addEventListener "keyup" callback
     (addEventListener "keydown" callback doc),
   λ doc', removeEventListener "keyup" callback
             (removeEventListener "keydown" callback doc')).

(** Lines 65-69.  [fn] is the identity of the function expression handed
    to [useKey]. *)
Definition useMetaKey (fn : positive)
    (callback : bool → list A) (doc : Document)
    : Document * (Document → Document) :=
  useKey
    {| ident := fn;
       body := λ e, callback (shiftKey e || metaKey e || altKey e || ctrlKey e) |}
    doc.

End keyboard.

(** ** The component that calls [useInterval] *)

(** What React keeps for one component instance between renders: the cell
    of [useState(0)], and the timer armed by the last effect until it
    completes or the effect's cleanup, [clearTimeout(timer)], clears it. *)
Record Instance := mkInstance {
  cell : Z;
  pending : option Timer;
}.

(** Lines 16-44, one render.  The hook reads [iterations] from the cell
    and returns it; after the render React runs the cleanup of the
    previous effect, which drops the timer still pending, and then the new
    effect, whose closure holds this render's arguments. *)
Definition useInterval (h : heap) (interval : value) (threshold : Z)
    (i : Instance) : option (Z * heap * Instance) :=
  let iterations := cell i in
  r ← useInterval_effect h (mkClosure interval threshold iterations);
  Some (iterations, r.1.1, {| cell := cell i; pending := r.2 |}).

(** The pending timer completes and its callback runs:
    [setIterations(iterations + 1)] with the [iterations] of the render
    that armed it. *)
Definition fire (i : Instance) : option Instance :=
  t ← pending i;
  Some {| cell := setIterations t; pending := None |}.

(** [k] times: the component renders with the same arguments and its
    timer completes. *)
Fixpoint rounds (k : nat) (h : heap) (interval : value) (threshold : Z)
    (i : Instance) : option (heap * Instance) :=
  match k with
  | O => Some (h, i)
  | S k' =>
      r ← useInterval h interval threshold i;
      i' ← fire r.2;
      rounds k' r.1.2 interval threshold i'
  end.

(** ** Sample inputs *)

(** A document with one listener of identity 2 for each key event; the
    actions of the trace are key codes. *)
Definition sample_document : gmap string (list (@Listener Z)) :=
  {[ "keydown" := [ {| ident := 2; body := λ _, [0] |} ];
     "keyup" := [ {| ident := 2; body := λ _, [0] |} ];
     "keypress" := [ {| ident := 2; body := λ _, [0] |} ] ]}.

Definition sample_event : KeyboardEvent :=
  {| keyCode := 27; shiftKey := false; metaKey := true;
     altKey := false; ctrlKey := false |}.

(** * Properties *)

(** Closed decidable goals, by evaluation. *)
Local Ltac by_decide := apply (bool_decide_unpack _); vm_compute; exact I.

(** ** The default sort *)

Section sort_compare.
Import Array.

Global Instance SortCompare_le_po : PartialOrder SortCompare_le.
Proof.
  unfold SortCompare_le. repeat split.
  - intros x. reflexivity.
  - intros x y z Hxy Hyz. by etrans.
  - intros x y Hxy Hyx. apply (inj pretty). by apply (anti_symm String.le).
Qed.

Global Instance SortCompare_le_total : Total SortCompare_le.
Proof. intros x y. unfold SortCompare_le. apply total, _. Qed.

(** The embedding does not depend on the algorithm behind [sort()]:
    every sorted rearrangement of the array is the one computed here. *)
Lemma sort_unique (xs ys : list Z) :
  Sorted SortCompare_le ys → ys ≡ₚ xs → ys = merge_sort SortCompare_le xs.
Proof.
  intros Hsorted Hperm. apply (Sorted_unique SortCompare_le); [done| |].
  - apply (Sorted_merge_sort _).
  - by rewrite merge_sort_Permutation.
Qed.
End sort_compare.

(** ** The array branch of the effect, unfolded *)

Lemma picked_Number xs n : picked xs = Number n → n ∈ xs ∧ 0 ≤ n.
Proof.
  unfold picked. intros Hp.
  destruct (merge_sort _ _ !! 0%nat) as [m|] eqn:Hm; simplify_eq/=.
  apply list_elem_of_lookup_2 in Hm.
  rewrite merge_sort_Permutation in Hm.
  by apply list_elem_of_filter in Hm as [? ?].
Qed.

Lemma picked_all_negative xs : Forall (λ ms, ms < 0) xs → picked xs = Undefined.
Proof.
  intros Hneg. unfold picked.
  replace (base.filter (λ ms, 0 ≤ ms) xs) with (@nil Z); [done|].
  induction Hneg as [|x xs Hx _ IH]; [done|].
  rewrite filter_cons_False; [done|lia].
Qed.

Lemma picked_is_Number xs x : x ∈ xs → 0 ≤ x → ∃ n, picked xs = Number n.
Proof.
  intros Hx Hpos. unfold picked.
  destruct (merge_sort _ _ !! 0%nat) as [m|] eqn:Hm; [by eexists|].
  apply lookup_ge_None in Hm.
  assert (x ∈ merge_sort Array.SortCompare_le (base.filter (λ ms, 0 ≤ ms) xs))
    as Hin.
  { rewrite merge_sort_Permutation. by apply list_elem_of_filter. }
  destruct (merge_sort _ _); [by apply elem_of_nil in Hin|simpl in Hm; lia].
Qed.

Lemma useInterval_effect_scalar h c s :
  interval c = Scalar s →
  useInterval_effect h c = Some (h, (arm c s).1, (arm c s).2).
Proof. unfold useInterval_effect. by intros ->. Qed.

Lemma useInterval_effect_array h c l xs :
  interval c = ArrayRef l → h !! l = Some xs → xs ≠ [] →
  useInterval_effect h c
  = Some (heap_after h xs, (arm c (picked xs)).1, (arm c (picked xs)).2).
Proof.
  intros Hc Hl Hxs. unfold useInterval_effect. rewrite Hc.
  unfold Array.length, Array.filter, Array.sort, Array.get.
  rewrite Hl. simpl.
  destruct (decide (List.length xs = 0%nat)) as [Hlen|_].
  { by apply length_zero_iff_nil in Hlen. }
  simpl. rewrite lookup_insert_eq. simpl.
  rewrite lookup_insert_eq. simpl.
  by rewrite insert_insert_eq.
Qed.

Lemma useInterval_effect_empty h c l :
  interval c = ArrayRef l → h !! l = Some [] →
  useInterval_effect h c = Some (h, c, None).
Proof.
  intros Hc Hl. unfold useInterval_effect. rewrite Hc.
  unfold Array.length. by rewrite Hl.
Qed.

(** The effect runs to completion from every state in which the value of
    [interval] is a number, [undefined] or an allocated array. *)
Lemma useInterval_effect_total h c :
  is_Some (read_input h (interval c)) → is_Some (useInterval_effect h c).
Proof.
  intros [i Hi]. destruct (interval c) as [s|l] eqn:Hc; simpl in Hi.
  - erewrite useInterval_effect_scalar; eauto.
  - destruct (h !! l) as [xs|] eqn:Hl; [|done].
    destruct xs as [|x xs].
    + erewrite useInterval_effect_empty; eauto.
    + erewrite useInterval_effect_array; eauto.
Qed.

(** ** What [resolve] computes *)

Lemma resolution_arm h c s :
  resolution (h, (arm c s).1, (arm c s).2) = resolve_scalar (threshold c) s.
Proof. unfold resolution, arm, resolve_scalar. by destruct (js_lt s 0). Qed.

Lemma resolve_Scalar h s t n :
  resolve h (mkClosure (Scalar s) t n) = Some (resolve_scalar t s).
Proof.
  unfold resolve. erewrite useInterval_effect_scalar; [|done].
  simpl. by rewrite resolution_arm.
Qed.

Lemma resolve_ArrayRef h l xs t n :
  h !! l = Some xs →
  resolve h (mkClosure (ArrayRef l) t n)
  = Some (if decide (xs = []) then NoTimer else resolve_scalar t (picked xs)).
Proof.
  intros Hl. unfold resolve. destruct (decide (xs = [])) as [->|Hxs].
  - by erewrite useInterval_effect_empty.
  - erewrite useInterval_effect_array; [|done..].
    simpl. by rewrite resolution_arm.
Qed.

Lemma resolve_unallocated h l t n :
  h !! l = None → resolve h (mkClosure (ArrayRef l) t n) = None.
Proof.
  intros Hl. unfold resolve, useInterval_effect, Array.length. simpl.
  by rewrite Hl.
Qed.

Lemma resolve_scalar_bounds t s n :
  resolve_scalar t s = Delay (Number n) → 0 ≤ n ∧ (s = Number n ∨ n = t).
Proof.
  unfold resolve_scalar, js_lt. destruct s as [|m]; [done|].
  repeat case_bool_decide; intros; simplify_eq; split; auto; lia.
Qed.

(** Whenever the delay is a number, it respects the threshold and is not
    negative. *)
Lemma resolve_Number_effective h c n :
  resolve h c = Some (Delay (Number n)) → threshold c ≤ n ∧ 0 ≤ n.
Proof.
  destruct c as [v t k]. simpl. destruct v as [s|l].
  - rewrite resolve_Scalar. intros [= Hr].
    unfold resolve_scalar, js_lt in Hr. destruct s as [|m]; [done|].
    repeat case_bool_decide; simplify_eq; lia.
  - destruct (h !! l) as [xs|] eqn:Hl.
    + rewrite (resolve_ArrayRef _ _ xs) by done.
      case_decide; [done|]. intros [= Hr].
      unfold resolve_scalar, js_lt in Hr.
      destruct (picked xs) as [|m]; [done|].
      repeat case_bool_decide; simplify_eq; lia.
    + by rewrite resolve_unallocated.
Qed.

(** An array with a non-negative element resolves to one of its
    non-negative elements, raised to the threshold. *)
Lemma resolve_array_member h l xs x t n :
  h !! l = Some xs → x ∈ xs → 0 ≤ x →
  ∃ m, m ∈ xs ∧ 0 ≤ m ∧ picked xs = Number m ∧
       resolve h (mkClosure (ArrayRef l) t n) = Some (Delay (Number (m `max` t))).
Proof.
  intros Hl Hx Hpos.
  destruct (picked_is_Number xs x Hx Hpos) as [m Hm].
  destruct (picked_Number _ _ Hm) as [Hin Hm0].
  exists m. split_and!; [done..|].
  rewrite (resolve_ArrayRef _ _ xs) by done.
  case_decide; [subst; by apply elem_of_nil in Hx|].
  rewrite Hm. unfold resolve_scalar, js_lt.
  repeat case_bool_decide; try lia; do 3 f_equal; lia.
Qed.

(** Running the effect a second time on the closure it has already
    assigned to arms the same timer: the assignments to [interval] are
    not a state that later runs can observe. *)
Lemma useInterval_effect_rerun h c h' c' r :
  useInterval_effect h c = Some (h', c', r) →
  useInterval_effect h' c' = Some (h', c', r).
Proof.
  assert (∀ s h0, useInterval_effect h0 (arm c s).1
                  = Some (h0, (arm c s).1, (arm c s).2)) as Harm.
  { intros s h0. unfold useInterval_effect, arm, js_lt, set_interval.
    destruct s as [|m]; simpl; [done|].
    repeat (case_bool_decide; simpl); try done; lia. }
  intros Hrun. destruct (interval c) as [s|l] eqn:Hc.
  - erewrite useInterval_effect_scalar in Hrun by done.
    simplify_eq. apply Harm.
  - destruct (h !! l) as [xs|] eqn:Hl.
    + destruct (decide (xs = [])) as [->|Hxs].
      * erewrite useInterval_effect_empty in Hrun by done.
        simplify_eq. by eapply useInterval_effect_empty.
      * erewrite useInterval_effect_array in Hrun by done.
        simplify_eq. apply Harm.
    + unfold useInterval_effect, Array.length in Hrun.
      rewrite Hc in Hrun. simpl in Hrun. by rewrite Hl in Hrun.
Qed.

(** ** Listeners *)

Section keyboard_lemmas.
Context {A : Type}.
Implicit Types (f : @Listener A) (doc : gmap string (list (@Listener A))).

Lemma listeners_addEventListener type f doc ty :
  ident f ∉ ident <$> listeners doc type →
  listeners (addEventListener type f doc) ty
  = listeners doc ty ++ (if decide (ty = type) then [f] else []).
Proof.
  intros Hfresh. unfold addEventListener.
  rewrite decide_False by done. unfold listeners at 1.
  destruct (decide (ty = type)) as [->|Hne].
  - by rewrite lookup_insert_eq.
  - rewrite lookup_insert_ne by done. by rewrite app_nil_r.
Qed.

(** A newly added listener runs after those already registered, and
    only for its own event type. *)
Lemma dispatchEvent_addEventListener type f doc ty e :
  ident f ∉ ident <$> listeners doc type →
  dispatchEvent ty e (addEventListener type f doc)
  = dispatchEvent ty e doc ++ (if decide (ty = type) then body f e else []).
Proof.
  intros Hfresh. unfold dispatchEvent.
  rewrite listeners_addEventListener by done.
  rewrite bind_app. f_equal. case_decide; simpl; [|done].
  by rewrite app_nil_r.
Qed.
End keyboard_lemmas.

(** * The claims *)

(** C1. The documentation promises the smallest non-negative element of
    the array.  On [[300, 1000]] with threshold 0 the effect arms the
    timer with 1000: [sort()] orders the numbers as strings, and "1000"
    comes before "300".  The smallest non-negative element is 300. *)
Theorem useInterval_array_300_1000 :
  resolve {[ 1%positive := [300; 1000] ]} (mkClosure (ArrayRef 1%positive) 0 0)
  = Some (Delay (Number 1000))
  ∧ smallest_non_negative [300; 1000] = Some 300.
Proof. split; vm_compute; reflexivity. Qed.

(** C2. For a non-empty array whose elements are all negative, and every
    threshold, the effect does not return early: the filtered array is
    empty, its first element is [undefined], neither comparison holds for
    [undefined], and the timer is armed with delay [undefined]. *)
Theorem useInterval_all_negative_arms_timer (h : heap) l xs t n :
  h !! l = Some xs → xs ≠ [] → Forall (λ ms, ms < 0) xs →
  resolve h (mkClosure (ArrayRef l) t n) = Some (Delay Undefined).
Proof.
  intros Hl Hxs Hneg. rewrite (resolve_ArrayRef _ _ xs) by done.
  rewrite decide_False by done. by rewrite picked_all_negative.
Qed.

Lemma useInterval_all_negative_arms_timer_witness :
  let h : heap := {[ 1%positive := [-5; -1] ]} in
  (h !! 1%positive = Some [-5; -1] ∧ [-5; -1] ≠ @nil Z ∧
   Forall (λ ms, ms < 0) [-5; -1]) ∧
  resolve h (mkClosure (ArrayRef 1%positive) 0 0) = Some (Delay Undefined).
Proof.
  assert (Forall (λ ms, ms < 0) [-5; -1]) as Hneg by (repeat constructor).
  split; [split_and!; [reflexivity|discriminate|exact Hneg]|].
  apply (useInterval_all_negative_arms_timer _ 1%positive [-5; -1] 0 0);
    [reflexivity|discriminate|exact Hneg].
Defined.

(** C3. For every threshold, the empty array resolves to no timer. *)
Theorem resolve_empty_array (h : heap) l t n :
  h !! l = Some [] →
  resolve h (mkClosure (ArrayRef l) t n) = Some NoTimer.
Proof. intros Hl. by rewrite (resolve_ArrayRef _ _ []). Qed.

Lemma resolve_empty_array_witness :
  let h : heap := {[ 1%positive := [] ]} in
  h !! 1%positive = Some [] ∧
  resolve h (mkClosure (ArrayRef 1%positive) 1000 0) = Some NoTimer.
Proof.
  split; [reflexivity|].
  apply (resolve_empty_array _ 1%positive 1000 0). reflexivity.
Defined.

(** C4. A negative single Duration resolves to no timer, whatever the
    threshold: the threshold is not applied to it. *)
Theorem resolve_negative_single (h : heap) d t n :
  d < 0 → resolve h (mkClosure (Scalar (Number d)) t n) = Some NoTimer.
Proof.
  intros Hd. rewrite resolve_Scalar. unfold resolve_scalar, js_lt.
  by rewrite bool_decide_true.
Qed.

Lemma resolve_negative_single_witness :
  -300 < 0 ∧
  resolve ∅ (mkClosure (Scalar (Number (-300))) 1000 0) = Some NoTimer.
Proof.
  split; [reflexivity|].
  apply (resolve_negative_single ∅ (-300) 1000 0). reflexivity.
Defined.

(** C5. A non-negative single Duration below a non-negative threshold
    resolves to the threshold; at or above the threshold it resolves to
    itself. *)
Theorem resolve_single_clamped (h : heap) d t n :
  0 ≤ d → 0 ≤ t →
  (d < t → resolve h (mkClosure (Scalar (Number d)) t n)
           = Some (Delay (Number t))) ∧
  (t ≤ d → resolve h (mkClosure (Scalar (Number d)) t n)
           = Some (Delay (Number d))).
Proof.
  intros Hd Ht. rewrite resolve_Scalar. unfold resolve_scalar, js_lt.
  rewrite bool_decide_false by lia.
  split; intros Hdt; [by rewrite bool_decide_true|].
  by rewrite bool_decide_false by lia.
Qed.

Lemma resolve_single_clamped_witness :
  (0 ≤ 300 ∧ 0 ≤ 1500 ∧ 0 ≤ 1000 ∧ 300 < 1000 ∧ 1000 ≤ 1500) ∧
  resolve ∅ (mkClosure (Scalar (Number 300)) 1000 0)
  = Some (Delay (Number 1000)) ∧
  resolve ∅ (mkClosure (Scalar (Number 1500)) 1000 0)
  = Some (Delay (Number 1500)).
Proof.
  split; [lia|]. split.
  - apply (resolve_single_clamped ∅ 300 1000 0); lia.
  - apply (resolve_single_clamped ∅ 1500 1000 0); lia.
Defined.

(** C6. The invariant of the effective Duration fails on an array of
    negative elements: with threshold 1000 the delay handed to
    [setTimeout] is [undefined], which is no number at or above the
    threshold. *)
Theorem useInterval_all_negative_not_effective :
  resolve {[ 1%positive := [-5; -1] ]} (mkClosure (ArrayRef 1%positive) 1000 0)
  = Some (Delay Undefined)
  ∧ ¬ effective 1000 (Delay Undefined).
Proof. split; [vm_compute; reflexivity|intros []]. Qed.

(** C7. The resolution is a function of the arguments alone: two calls
    with the same threshold, whose inputs read the same (the same number,
    or arrays with the same contents), resolve alike, in whatever heaps
    they run, wherever the arrays are allocated, and whatever the tick
    counters are. *)
Theorem resolve_deterministic (h1 h2 : heap) v1 v2 t n1 n2 :
  read_input h1 v1 = read_input h2 v2 →
  resolve h1 (mkClosure v1 t n1) = resolve h2 (mkClosure v2 t n2).
Proof.
  destruct v1 as [s1|l1], v2 as [s2|l2]; simpl.
  - intros [= ->]. by rewrite !resolve_Scalar.
  - destruct (h2 !! l2); intros; simplify_eq/=.
  - destruct (h1 !! l1); intros; simplify_eq/=.
  - destruct (h1 !! l1) as [xs|] eqn:H1, (h2 !! l2) as [ys|] eqn:H2;
      intros; simplify_eq/=.
    + by rewrite (resolve_ArrayRef h1 _ ys), (resolve_ArrayRef h2 _ ys).
    + by rewrite !resolve_unallocated.
Qed.

Lemma resolve_deterministic_witness :
  let h1 : heap := {[ 1%positive := [300; 1000] ]} in
  let h2 : heap := {[ 1%positive := [7]; 5%positive := [300; 1000] ]} in
  read_input h1 (ArrayRef 1%positive) = read_input h2 (ArrayRef 5%positive) ∧
  resolve h1 (mkClosure (ArrayRef 1%positive) 500 0)
  = resolve h2 (mkClosure (ArrayRef 5%positive) 500 42).
Proof.
  split; [reflexivity|].
  apply (resolve_deterministic _ _ (ArrayRef 1%positive) (ArrayRef 5%positive)).
  reflexivity.
Defined.

(** C8. A negative threshold raises nothing: a non-negative single
    Duration resolves to itself. *)
Theorem resolve_negative_threshold (h : heap) d t n :
  t < 0 → 0 ≤ d →
  resolve h (mkClosure (Scalar (Number d)) t n) = Some (Delay (Number d)).
Proof.
  intros Ht Hd. rewrite resolve_Scalar. unfold resolve_scalar, js_lt.
  by rewrite !bool_decide_false by lia.
Qed.

Lemma resolve_negative_threshold_witness :
  (-1000 < 0 ∧ 0 ≤ 300) ∧
  resolve ∅ (mkClosure (Scalar (Number 300)) (-1000) 0)
  = Some (Delay (Number 300)).
Proof.
  split; [lia|]. apply (resolve_negative_threshold ∅ 300 (-1000) 0); lia.
Defined.

(** C9. With [useEscapeKey] mounted on any document, for any callback:
    a key-press event whose key code is 27 runs the listeners registered
    before and then the callback, once; an event with any other key code,
    or of another type, runs the listeners registered before and nothing
    else.  So for a callback that does something, the event's trace
    differs from the one without the hook exactly when the event is a
    key-press with key code 27. *)
Theorem useEscapeKey_invokes_iff_27 {A : Type} (fn : positive)
    (callback : KeyboardEvent → list A)
    (doc : gmap string (list (@Listener A))) type (e : KeyboardEvent) :
  fn ∉ ident <$> listeners doc "keypress" →
  (type = "keypress" ∧ keyCode e = 27 →
   dispatchEvent type e (useEscapeKey fn callback doc).1
   = dispatchEvent type e doc ++ callback e) ∧
  (¬ (type = "keypress" ∧ keyCode e = 27) →
   dispatchEvent type e (useEscapeKey fn callback doc).1
   = dispatchEvent type e doc) ∧
  (callback e ≠ [] →
   dispatchEvent type e (useEscapeKey fn callback doc).1
   ≠ dispatchEvent type e doc
   ↔ type = "keypress" ∧ keyCode e = 27).
Proof.
  intros Hfresh.
  assert (dispatchEvent type e (useEscapeKey fn callback doc).1
          = dispatchEvent type e doc
            ++ (if decide (type = "keypress" ∧ keyCode e = 27)
                then callback e else [])) as Hrun.
  { unfold useEscapeKey, useKeyPress. simpl.
    rewrite dispatchEvent_addEventListener by done. f_equal. simpl.
    destruct (decide (type = "keypress")) as [Hty|Hty].
    - destruct (decide (keyCode e = 27)) as [Hk|Hk].
      + by rewrite decide_True.
      + rewrite decide_False by (by intros [_ ?]). done.
    - rewrite decide_False by (by intros [? _]). done. }
  rewrite Hrun. split_and!.
  - intros H27. by rewrite decide_True.
  - intros Hnot. rewrite decide_False by done. apply app_nil_r.
  - intros Hacts. case_decide as H27; split; try done.
    + intros _ Heq. apply Hacts.
      apply (app_inv_head (dispatchEvent type e doc)). by rewrite app_nil_r.
    + intros Hne. by rewrite app_nil_r in Hne.
Qed.

Lemma useEscapeKey_invokes_iff_27_witness :
  let callback := λ e : KeyboardEvent, [keyCode e] in
  (1%positive ∉ (ident <$> listeners sample_document "keypress")) ∧
  (("keypress" = "keypress" ∧ keyCode sample_event = 27 →
    dispatchEvent "keypress" sample_event
      (useEscapeKey 1 callback sample_document).1
    = dispatchEvent "keypress" sample_event sample_document
      ++ callback sample_event) ∧
   (¬ ("keypress" = "keypress" ∧ keyCode sample_event = 27) →
    dispatchEvent "keypress" sample_event
      (useEscapeKey 1 callback sample_document).1
    = dispatchEvent "keypress" sample_event sample_document) ∧
   (callback sample_event ≠ [] →
    dispatchEvent "keypress" sample_event
      (useEscapeKey 1 callback sample_document).1
    ≠ dispatchEvent "keypress" sample_event sample_document
    ↔ "keypress" = "keypress" ∧ keyCode sample_event = 27)).
Proof.
  split; [by_decide|].
  apply (useEscapeKey_invokes_iff_27 1 (λ e : KeyboardEvent, [keyCode e])
           sample_document "keypress" sample_event); by_decide.
Defined.

(** C10. The effect leaves every array of the heap as it found it, the
    caller's array among them: [filter] allocates the array that [sort]
    then reorders. *)
Theorem useInterval_effect_frame (h h' : heap) c c' r l xs :
  useInterval_effect h c = Some (h', c', r) →
  h !! l = Some xs → h' !! l = Some xs.
Proof.
  intros Hrun Hl. destruct (interval c) as [s|l0] eqn:Hc.
  - erewrite useInterval_effect_scalar in Hrun by done. by simplify_eq.
  - destruct (h !! l0) as [ys|] eqn:Hl0.
    + destruct (decide (ys = [])) as [->|Hys].
      * erewrite useInterval_effect_empty in Hrun by done. by simplify_eq.
      * erewrite useInterval_effect_array in Hrun by done. simplify_eq.
        unfold heap_after. rewrite lookup_insert_ne; [done|].
        intros Heq. apply (is_fresh (dom h)). rewrite Heq.
        apply elem_of_dom. eauto.
    + unfold useInterval_effect, Array.length in Hrun.
      rewrite Hc in Hrun. simpl in Hrun. by rewrite Hl0 in Hrun.
Qed.

Lemma useInterval_effect_frame_witness :
  let h : heap := {[ 1%positive := [1000; 300; -5] ]} in
  let c := mkClosure (ArrayRef 1%positive) 0 0 in
  let h' : heap := heap_after h [1000; 300; -5] in
  (useInterval_effect h c
   = Some (h', (arm c (picked [1000; 300; -5])).1,
               (arm c (picked [1000; 300; -5])).2) ∧
   h !! 1%positive = Some [1000; 300; -5]) ∧
  h' !! 1%positive = Some [1000; 300; -5].
Proof.
  assert (useInterval_effect {[ 1%positive := [1000; 300; -5] ]}
            (mkClosure (ArrayRef 1%positive) 0 0)
          = Some (heap_after {[ 1%positive := [1000; 300; -5] ]} [1000; 300; -5],
                  (arm (mkClosure (ArrayRef 1%positive) 0 0)
                       (picked [1000; 300; -5])).1,
                  (arm (mkClosure (ArrayRef 1%positive) 0 0)
                       (picked [1000; 300; -5])).2)) as Hrun
    by (vm_compute; reflexivity).
  split; [split; [exact Hrun|reflexivity]|].
  exact (useInterval_effect_frame _ _ _ _ _ 1%positive _ Hrun eq_refl).
Defined.

(** * Further properties of the code *)

(** ** Decimal numerals under the string order *)

Section numerals.
Local Open Scope N_scope.

Lemma pretty_N_unfold (x : N) :
  pretty x = pretty_N_go (x `div` 10) (String (pretty_N_char (x `mod` 10)) "").
Proof.
  unfold pretty, pretty_N. case_decide as Hx.
  - subst. by rewrite pretty_N_go_0.
  - by rewrite pretty_N_go_step by lia.
Qed.

Lemma pretty_N_go_length (x : N) s :
  (String.length s ≤ String.length (pretty_N_go x s))%nat ∧
  (0 < x → (String.length s < String.length (pretty_N_go x s))%nat).
Proof.
  revert s. induction (N.lt_wf_0 x) as [x _ IH]. intros s.
  assert (x = 0 ∨ 0 < x) as [->|Hx] by lia.
  { rewrite pretty_N_go_0. split; [done|lia]. }
  rewrite pretty_N_go_step by done.
  destruct (IH (x `div` 10)) with (s := String (pretty_N_char (x `mod` 10)) s)
    as [Hle _].
  { by apply N.div_lt. }
  simpl in Hle. split; [lia|intros _; lia].
Qed.

Lemma pretty_N_char_compare (a b : N) :
  a < 10 → b < 10 →
  Ascii.compare (pretty_N_char a) (pretty_N_char b) = (a ?= b).
Proof.
  intros Ha Hb.
  assert (∀ n, n < 10 → n ∈ [0;1;2;3;4;5;6;7;8;9]) as Hdigit.
  { intros n Hn. rewrite !elem_of_cons. lia. }
  apply Hdigit in Ha, Hb.
  rewrite !elem_of_cons in Ha, Hb. rewrite elem_of_nil in Ha, Hb.
  destruct_or!; subst; try done.
Qed.

Lemma N_compare_div_mod (x y : N) :
  (x ?= y) = match x `div` 10 ?= y `div` 10 with
             | Eq => x `mod` 10 ?= y `mod` 10
             | c => c
             end.
Proof.
  assert (10 ≠ 0) as H10 by done.
  pose proof (N.div_mod x 10 H10). pose proof (N.div_mod y 10 H10).
  pose proof (N.mod_lt x 10 H10). pose proof (N.mod_lt y 10 H10).
  generalize dependent (x `mod` 10). generalize dependent (y `mod` 10).
  generalize dependent (x `div` 10). generalize dependent (y `div` 10).
  intros qy qx ry Hy Hry rx Hx Hrx.
  destruct (N.compare_spec qx qy); destruct (N.compare_spec rx ry);
    first [apply N.compare_eq_iff|apply N.compare_lt_iff|apply N.compare_gt_iff];
    lia.
Qed.

Lemma pretty_N_go_compare (x y : N) s s' :
  String.length (pretty_N_go x s) = String.length (pretty_N_go y s') →
  String.length s = String.length s' →
  String.compare (pretty_N_go x s) (pretty_N_go y s')
  = match x ?= y with Eq => String.compare s s' | c => c end.
Proof.
  revert y s s'. induction (N.lt_wf_0 x) as [x _ IH]. intros y s s' Hlen Hs.
  assert ((x = 0 ∨ 0 < x) ∧ (y = 0 ∨ 0 < y)) as [[->|Hx] [->|Hy]] by lia.
  - by rewrite !pretty_N_go_0.
  - rewrite pretty_N_go_0 in Hlen.
    destruct (pretty_N_go_length y s') as [_ Hlt]. specialize (Hlt Hy). lia.
  - rewrite pretty_N_go_0 in Hlen.
    destruct (pretty_N_go_length x s) as [_ Hlt]. specialize (Hlt Hx). lia.
  - rewrite pretty_N_go_step in Hlen |- * by done.
    rewrite (pretty_N_go_step y) in Hlen |- * by done.
    rewrite IH; [|by apply N.div_lt|done|simpl; lia].
    rewrite (N_compare_div_mod x y). simpl.
    rewrite pretty_N_char_compare by (by apply N.mod_lt).
    destruct (x `div` 10 ?= y `div` 10); [|done..].
    destruct (N.compare_spec (x `mod` 10) (y `mod` 10)) as [He|?|?]; [|done..].
    done.
Qed.

Lemma pretty_N_compare (x y : N) :
  String.length (pretty x) = String.length (pretty y) →
  String.compare (pretty x) (pretty y) = (x ?= y).
Proof.
  rewrite !pretty_N_unfold. intros Hlen.
  rewrite pretty_N_go_compare by done.
  rewrite (N_compare_div_mod x y). simpl.
  rewrite pretty_N_char_compare by (by apply N.mod_lt).
  destruct (x `div` 10 ?= y `div` 10); [|done..].
  by destruct (x `mod` 10 ?= y `mod` 10).
Qed.
End numerals.

Lemma pretty_Z_to_N (z : Z) : 0 ≤ z → pretty z = pretty (Z.to_N z).
Proof. intros Hz. destruct z as [|p|p]; [done|done|lia]. Qed.

Lemma pretty_Z_le (x y : Z) :
  0 ≤ x → 0 ≤ y → String.length (pretty x) = String.length (pretty y) →
  String.le (pretty x) (pretty y) ↔ x ≤ y.
Proof.
  intros Hx Hy. rewrite !pretty_Z_to_N by done. intros Hlen.
  unfold String.le, String.leb. rewrite pretty_N_compare by done.
  destruct (N.compare_spec (Z.to_N x) (Z.to_N y)); simpl; split; try done; lia.
Qed.

(** ** What the array branch picks *)

Lemma picked_least xs m x :
  picked xs = Number m → x ∈ xs → 0 ≤ x → Array.SortCompare_le m x.
Proof.
  unfold picked. intros Hp Hx Hpos.
  pose proof (StronglySorted_merge_sort Array.SortCompare_le
                (base.filter (λ ms, 0 ≤ ms) xs)) as Hsorted.
  assert (x ∈ merge_sort Array.SortCompare_le (base.filter (λ ms, 0 ≤ ms) xs))
    as Hin.
  { rewrite merge_sort_Permutation. by apply list_elem_of_filter. }
  destruct (merge_sort _ _) as [|y ys]; simplify_eq/=.
  apply elem_of_cons in Hin as [->|Hin]; [done|].
  apply StronglySorted_inv in Hsorted as [_ Hall].
  by eapply Forall_forall in Hall.
Qed.

Lemma foldr_min_spec (d : Z) ds :
  foldr Z.min d ds ∈ d :: ds ∧ ∀ x, x ∈ d :: ds → foldr Z.min d ds ≤ x.
Proof.
  induction ds as [|e ds [IHin IHle]]; simpl.
  - split; [apply list_elem_of_here|]. by intros x ->%list_elem_of_singleton.
  - split.
    + destruct (Z.min_spec e (foldr Z.min d ds)) as [[_ ->]|[_ ->]].
      * apply list_elem_of_further, list_elem_of_here.
      * apply elem_of_cons in IHin as [->|?];
          [apply list_elem_of_here|by do 2 apply list_elem_of_further].
    + intros x [->|[->|Hx]%elem_of_cons]%elem_of_cons.
      * specialize (IHle d (list_elem_of_here _ _)). lia.
      * lia.
      * specialize (IHle x (list_elem_of_further _ _ _ Hx)). lia.
Qed.

Lemma smallest_non_negative_Some xs m :
  smallest_non_negative xs = Some m →
  m ∈ xs ∧ 0 ≤ m ∧ ∀ x, x ∈ xs → 0 ≤ x → m ≤ x.
Proof.
  unfold smallest_non_negative.
  destruct (base.filter (λ ms, 0 ≤ ms) xs) as [|d ds] eqn:Hf; [done|].
  intros [= <-]. destruct (foldr_min_spec d ds) as [Hin Hle].
  rewrite <-Hf in Hin, Hle. apply list_elem_of_filter in Hin as [? ?].
  split_and!; [done..|]. intros x Hx Hpos. apply Hle.
  by apply list_elem_of_filter.
Qed.

Lemma heap_after_lookup (h : heap) xs l ys :
  h !! l = Some ys → heap_after h xs !! l = Some ys.
Proof.
  intros Hl. unfold heap_after. rewrite lookup_insert_ne; [done|].
  intros Heq. apply (is_fresh (dom h)). rewrite Heq.
  apply elem_of_dom. eauto.
Qed.

Lemma resolve_scalar_Undefined t s :
  resolve_scalar t s = Delay Undefined ↔ s = Undefined.
Proof.
  unfold resolve_scalar, js_lt. destruct s as [|m]; [done|].
  repeat case_bool_decide; split; intros; simplify_eq.
Qed.

Lemma resolve_scalar_NoTimer t s :
  resolve_scalar t s = NoTimer ↔ ∃ m, s = Number m ∧ m < 0.
Proof.
  unfold resolve_scalar, js_lt. destruct s as [|m].
  - split; [done|]. by intros (m & ? & _).
  - case_bool_decide; split; try done.
    + eauto.
    + intros (m' & ? & ?); simplify_eq. lia.
Qed.

(** ** [useInterval]: the delay *)

(** For an array of elements up to [MAX_SAFE_INTEGER] with a non-negative
    element, the delay is the non-negative element whose decimal numeral
    is first in string order, raised to the threshold. *)
Theorem useInterval_array_first_numeral (h : heap) l xs x t n :
  h !! l = Some xs → Forall (λ ms, ms ≤ MAX_SAFE_INTEGER) xs →
  x ∈ xs → 0 ≤ x →
  ∃ m, m ∈ xs ∧ 0 ≤ m ∧
       (∀ y, y ∈ xs → 0 ≤ y → String.le (pretty m) (pretty y)) ∧
       resolve h (mkClosure (ArrayRef l) t n)
       = Some (Delay (Number (m `max` t))).
Proof.
  intros Hl _ Hx Hpos.
  destruct (picked_is_Number xs x Hx Hpos) as [m Hm].
  destruct (picked_Number _ _ Hm) as [Hin Hm0].
  exists m. split_and!; [done..| |].
  - intros y Hy Hy0. by apply (picked_least xs).
  - rewrite (resolve_ArrayRef _ _ xs) by done.
    case_decide; [subst; by apply elem_of_nil in Hx|].
    rewrite Hm. unfold resolve_scalar, js_lt.
    repeat case_bool_decide; try lia; do 3 f_equal; lia.
Qed.

Lemma useInterval_array_first_numeral_witness :
  let h : heap := {[ 1%positive := [300; 1000; -5; 25] ]} in
  (h !! 1%positive = Some [300; 1000; -5; 25] ∧
   Forall (λ ms, ms ≤ MAX_SAFE_INTEGER) [300; 1000; -5; 25] ∧
   300 ∈ [300; 1000; -5; 25] ∧ 0 ≤ 300) ∧
  ∃ m, m ∈ [300; 1000; -5; 25] ∧ 0 ≤ m ∧
       (∀ y, y ∈ [300; 1000; -5; 25] → 0 ≤ y →
             String.le (pretty m) (pretty y)) ∧
       resolve h (mkClosure (ArrayRef 1%positive) 500 0)
       = Some (Delay (Number (m `max` 500))).
Proof.
  assert (300 ∈ [300; 1000; -5; 25]) as Hin by apply list_elem_of_here.
  assert (Forall (λ ms, ms ≤ MAX_SAFE_INTEGER) [300; 1000; -5; 25]) as Hsafe
    by by_decide.
  split; [split_and!; [reflexivity|exact Hsafe|exact Hin|lia]|].
  apply (useInterval_array_first_numeral _ 1%positive [300; 1000; -5; 25]
           300 500 0);
    [reflexivity|exact Hsafe|exact Hin|lia].
Defined.

(** When the elements of the array are at most [MAX_SAFE_INTEGER] and the
    non-negative ones all have numerals of the same length, the string
    order is the numeric order, and the delay is the smallest non-negative
    element raised to the threshold. *)
Theorem useInterval_array_same_length (h : heap) l xs w m t n :
  h !! l = Some xs → Forall (λ ms, ms ≤ MAX_SAFE_INTEGER) xs →
  (∀ x, x ∈ xs → 0 ≤ x → String.length (pretty x) = w) →
  smallest_non_negative xs = Some m →
  resolve h (mkClosure (ArrayRef l) t n) = Some (Delay (Number (m `max` t))).
Proof.
  intros Hl _ Hw Hmin.
  destruct (smallest_non_negative_Some _ _ Hmin) as (Hin & Hm0 & Hle).
  destruct (picked_is_Number xs m Hin Hm0) as [p Hp].
  destruct (picked_Number _ _ Hp) as [Hpin Hp0].
  assert (p = m) as ->.
  { apply Z.le_antisymm; [|by apply Hle].
    apply pretty_Z_le; [done..| |by apply (picked_least xs)].
    by rewrite !Hw. }
  rewrite (resolve_ArrayRef _ _ xs) by done.
  case_decide; [subst; by apply elem_of_nil in Hin|].
  rewrite Hp. unfold resolve_scalar, js_lt.
  repeat case_bool_decide; try lia; do 3 f_equal; lia.
Qed.

Lemma useInterval_array_same_length_witness :
  let h : heap := {[ 1%positive := [900; -1000; 300; 512] ]} in
  (h !! 1%positive = Some [900; -1000; 300; 512] ∧
   Forall (λ ms, ms ≤ MAX_SAFE_INTEGER) [900; -1000; 300; 512] ∧
   (∀ x, x ∈ [900; -1000; 300; 512] → 0 ≤ x →
         String.length (pretty x) = 3%nat) ∧
   smallest_non_negative [900; -1000; 300; 512] = Some 300) ∧
  resolve h (mkClosure (ArrayRef 1%positive) 0 0)
  = Some (Delay (Number (300 `max` 0))).
Proof.
  assert (∀ x, x ∈ [900; -1000; 300; 512] → 0 ≤ x →
               String.length (pretty x) = 3%nat) as Hw.
  { intros x Hx Hpos. rewrite !elem_of_cons in Hx. rewrite elem_of_nil in Hx.
    destruct Hx as [->|[->|[->|[->|[]]]]]; [reflexivity|lia|reflexivity..]. }
  assert (Forall (λ ms, ms ≤ MAX_SAFE_INTEGER) [900; -1000; 300; 512])
    as Hsafe by by_decide.
  split; [split_and!; [reflexivity|exact Hsafe|exact Hw|reflexivity]|].
  apply (useInterval_array_same_length _ 1%positive [900; -1000; 300; 512]
           3%nat 300 0 0);
    [reflexivity|exact Hsafe|exact Hw|reflexivity].
Defined.

(** The timer is armed with an [undefined] delay exactly for the
    non-empty arrays without a non-negative element. *)
Theorem useInterval_array_undefined_iff (h : heap) l xs t n :
  h !! l = Some xs →
  resolve h (mkClosure (ArrayRef l) t n) = Some (Delay Undefined)
  ↔ xs ≠ [] ∧ Forall (λ ms, ms < 0) xs.
Proof.
  intros Hl. rewrite (resolve_ArrayRef _ _ xs) by done.
  case_decide as Hxs; [split; [done|by intros [? _]]|].
  split.
  - intros [= Hr%resolve_scalar_Undefined]. split; [done|].
    apply Forall_forall. intros x Hx.
    destruct (decide (x < 0)) as [|Hpos]; [done|].
    destruct (picked_is_Number xs x Hx) as [m Hm]; [lia|congruence].
  - intros [_ Hneg]. rewrite picked_all_negative by done. done.
Qed.

Lemma useInterval_array_undefined_iff_witness :
  let h : heap := {[ 1%positive := [-5; -1] ]} in
  h !! 1%positive = Some [-5; -1] ∧
  (resolve h (mkClosure (ArrayRef 1%positive) 1000 0) = Some (Delay Undefined)
   ↔ [-5; -1] ≠ @nil Z ∧ Forall (λ ms, ms < 0) [-5; -1]).
Proof.
  split; [reflexivity|].
  apply (useInterval_array_undefined_iff _ 1%positive [-5; -1] 1000 0).
  reflexivity.
Defined.

(** An array resolves to no timer only when it is empty: after the array
    branch the value is never negative, so the return of line 31 is not
    taken. *)
Theorem useInterval_array_no_timer_iff (h : heap) l xs t n :
  h !! l = Some xs →
  resolve h (mkClosure (ArrayRef l) t n) = Some NoTimer ↔ xs = [].
Proof.
  intros Hl. rewrite (resolve_ArrayRef _ _ xs) by done.
  case_decide as Hxs; [done|]. split; [|done].
  intros [= (m & Hm & Hneg)%resolve_scalar_NoTimer].
  apply picked_Number in Hm as [_ ?]. lia.
Qed.

Lemma useInterval_array_no_timer_iff_witness :
  let h : heap := {[ 1%positive := [-5; 40] ]} in
  h !! 1%positive = Some [-5; 40] ∧
  (resolve h (mkClosure (ArrayRef 1%positive) 0 0) = Some NoTimer
   ↔ [-5; 40] = @nil Z).
Proof.
  split; [reflexivity|].
  apply (useInterval_array_no_timer_iff _ 1%positive [-5; 40] 0 0).
  reflexivity.
Defined.

Lemma resolve_Number_effective_witness :
  let h : heap := {[ 1%positive := [300; 1000] ]} in
  let c := mkClosure (ArrayRef 1%positive) 2000 0 in
  resolve h c = Some (Delay (Number 2000)) ∧ threshold c ≤ 2000 ∧ 0 ≤ 2000.
Proof.
  assert (resolve {[ 1%positive := [300; 1000] ]}
            (mkClosure (ArrayRef 1%positive) 2000 0)
          = Some (Delay (Number 2000))) as Hr by (vm_compute; reflexivity).
  split; [exact Hr|]. exact (resolve_Number_effective _ _ _ Hr).
Defined.

Lemma useInterval_effect_rerun_witness :
  let h : heap := {[ 1%positive := [300; 1000] ]} in
  let c := mkClosure (ArrayRef 1%positive) 2000 7 in
  let h' := heap_after h [300; 1000] in
  let c' := mkClosure (Scalar (Number 2000)) 2000 7 in
  let r := Some (mkTimer (Number 2000) 8) in
  useInterval_effect h c = Some (h', c', r) ∧
  useInterval_effect h' c' = Some (h', c', r).
Proof.
  assert (useInterval_effect {[ 1%positive := [300; 1000] ]}
            (mkClosure (ArrayRef 1%positive) 2000 7)
          = Some (heap_after {[ 1%positive := [300; 1000] ]} [300; 1000],
                  mkClosure (Scalar (Number 2000)) 2000 7,
                  Some (mkTimer (Number 2000) 8))) as Hrun
    by (vm_compute; reflexivity).
  split; [exact Hrun|]. exact (useInterval_effect_rerun _ _ _ _ _ Hrun).
Defined.

(** ** [useInterval]: the count of completions *)

Lemma useInterval_effect_cases h c h' c' r :
  useInterval_effect h c = Some (h', c', r) →
  (∃ l, interval c = ArrayRef l ∧ h !! l = Some [] ∧
        h' = h ∧ c' = c ∧ r = None) ∨
  (∃ s, (interval c = Scalar s ∧ h' = h ∨
         ∃ l xs, interval c = ArrayRef l ∧ h !! l = Some xs ∧ xs ≠ [] ∧
                 s = picked xs ∧ h' = heap_after h xs) ∧
        c' = (arm c s).1 ∧ r = (arm c s).2).
Proof.
  intros Hrun. destruct (interval c) as [s|l] eqn:Hc.
  - erewrite useInterval_effect_scalar in Hrun by done. simplify_eq.
    right. exists s. eauto.
  - destruct (h !! l) as [xs|] eqn:Hl.
    + destruct (decide (xs = [])) as [->|Hxs].
      * erewrite useInterval_effect_empty in Hrun by done. simplify_eq.
        left. eauto 10.
      * erewrite useInterval_effect_array in Hrun by done. simplify_eq.
        right. exists (picked xs). split_and!; [|done..]. right. eauto 10.
    + unfold useInterval_effect, Array.length in Hrun.
      rewrite Hc in Hrun. simpl in Hrun. by rewrite Hl in Hrun.
Qed.

Lemma useInterval_effect_setIterations h c h' c' tm :
  useInterval_effect h c = Some (h', c', Some tm) →
  setIterations tm = iterations c + 1.
Proof.
  intros [(l & _ & _ & _ & _ & ?)|(s & _ & _ & Hr)]%useInterval_effect_cases;
    [done|].
  unfold arm in Hr. destruct (js_lt s 0); simplify_eq/=. done.
Qed.

Lemma resolve_iterations h v t n n' :
  resolve h (mkClosure v t n) = resolve h (mkClosure v t n').
Proof.
  destruct v as [s|l]; [by rewrite !resolve_Scalar|].
  destruct (h !! l) as [xs|] eqn:Hl.
  - by rewrite !(resolve_ArrayRef _ _ xs).
  - by rewrite !resolve_unallocated.
Qed.

Lemma resolve_after_effect h v t n h' c' r :
  useInterval_effect h (mkClosure v t n) = Some (h', c', r) →
  resolve h' (mkClosure v t n) = resolve h (mkClosure v t n).
Proof.
  intros [(l & ? & _ & -> & _)|(s & Hs & _)]%useInterval_effect_cases; [done|].
  destruct Hs as [[_ ->]|(l & xs & Hv & Hl & _ & _ & ->)]; [done|].
  simpl in Hv. subst v.
  rewrite (resolve_ArrayRef _ _ xs) by by apply heap_after_lookup.
  by rewrite (resolve_ArrayRef h _ xs).
Qed.

(** Whenever the arguments resolve to a timer, [k] completions of the
    timer, each followed by a render with the same arguments, advance the
    count by [k]: the next render returns the advanced count and arms the
    timer with the same delay again. *)
Theorem useInterval_counts_completions (h : heap) v t i d (k : nat) :
  resolve h (mkClosure v t (cell i)) = Some (Delay d) →
  ∃ h' i', rounds k h v t i = Some (h', i') ∧
           cell i' = cell i + Z.of_nat k ∧
           ∃ h'' i'', useInterval h' v t i'
                      = Some (cell i + Z.of_nat k, h'', i'') ∧
                      delay <$> pending i'' = Some d.
Proof.
  assert (∀ h0 i0, resolve h0 (mkClosure v t (cell i0)) = Some (Delay d) →
            ∃ h1 c1 tm, useInterval_effect h0 (mkClosure v t (cell i0))
                        = Some (h1, c1, Some tm) ∧ delay tm = d ∧
                        setIterations tm = cell i0 + 1 ∧
                        ∀ n, resolve h1 (mkClosure v t n) = Some (Delay d))
    as Hstep.
  { intros h0 i0 Hres. unfold resolve in Hres.
    destruct (useInterval_effect h0 _) as [[[h1 c1] r]|] eqn:Hrun; [|done].
    unfold resolution in Hres. simpl in Hres.
    destruct r as [tm|]; simplify_eq.
    exists h1, c1, tm. split_and!; [done..| |].
    - by apply useInterval_effect_setIterations in Hrun.
    - intros n. rewrite (resolve_iterations _ _ _ n (cell i0)).
      rewrite (resolve_after_effect _ _ _ _ _ _ _ Hrun).
      unfold resolve. by rewrite Hrun. }
  revert h i. induction k as [|k IH]; intros h i Hres.
  - exists h, i. split_and!; [done|simpl; lia|].
    destruct (Hstep h i Hres) as (h1 & c1 & tm & Hrun & Hd & _ & _).
    exists h1, {| cell := cell i; pending := Some tm |}.
    unfold useInterval. rewrite Hrun. simpl.
    split; [do 3 f_equal; lia|by rewrite Hd].
  - destruct (Hstep h i Hres) as (h1 & c1 & tm & Hrun & Hd & Hset & Hnext).
    destruct (IH h1 {| cell := setIterations tm; pending := None |})
      as (h' & i' & Hrounds & Hcell & h'' & i'' & Hrender & Hpending).
    { apply Hnext. }
    simpl in Hcell, Hrender.
    exists h', i'. split_and!.
    + simpl. unfold useInterval at 1. rewrite Hrun. simpl. done.
    + lia.
    + exists h'', i''. split; [|done]. rewrite Hrender. do 3 f_equal. lia.
Qed.

Lemma useInterval_counts_completions_witness :
  let h : heap := {[ 1%positive := [300; 1000] ]} in
  let i := {| cell := 0; pending := None |} in
  resolve h (mkClosure (ArrayRef 1%positive) 0 (cell i))
  = Some (Delay (Number 1000)) ∧
  ∃ h' i', rounds 3 h (ArrayRef 1%positive) 0 i = Some (h', i') ∧
           cell i' = cell i + Z.of_nat 3 ∧
           ∃ h'' i'', useInterval h' (ArrayRef 1%positive) 0 i'
                      = Some (cell i + Z.of_nat 3, h'', i'') ∧
                      delay <$> pending i'' = Some (Number 1000).
Proof.
  assert (resolve {[ 1%positive := [300; 1000] ]}
            (mkClosure (ArrayRef 1%positive) 0 0)
          = Some (Delay (Number 1000))) as Hres by (vm_compute; reflexivity).
  split; [exact Hres|].
  exact (useInterval_counts_completions _ (ArrayRef 1%positive) 0
           {| cell := 0; pending := None |} _ 3 Hres).
Defined.

(** ** The keyboard hooks on any document *)

Section keyboard_hooks.
Context {A : Type}.
Implicit Types (f g : @Listener A) (doc : gmap string (list (@Listener A))).

Lemma listeners_addEventListener_other type f doc ty :
  ty ≠ type → listeners (addEventListener type f doc) ty = listeners doc ty.
Proof.
  intros Hne. unfold addEventListener. case_decide; [done|].
  unfold listeners at 1. by rewrite lookup_insert_ne.
Qed.

Lemma listeners_addEventListener_registered type f doc :
  ident f ∈ ident <$> listeners doc type → addEventListener type f doc = doc.
Proof. intros Hin. unfold addEventListener. by rewrite decide_True. Qed.

Lemma listeners_removeEventListener type f doc ty :
  listeners (removeEventListener type f doc) ty
  = if decide (ty = type)
    then base.filter (λ g, ident g ≠ ident f) (listeners doc ty)
    else listeners doc ty.
Proof.
  unfold removeEventListener, listeners.
  destruct (doc !! type) as [fs|] eqn:Hfs.
  - case_decide as Hty.
    + subst. by rewrite lookup_insert_eq, Hfs.
    + by rewrite lookup_insert_ne.
  - case_decide as Hty; [|done]. subst. by rewrite Hfs.
Qed.

Lemma filter_ident_fresh f (fs : list (@Listener A)) :
  ident f ∉ ident <$> fs → base.filter (λ g, ident g ≠ ident f) fs = fs.
Proof.
  induction fs as [|g fs IH]; [done|]. rewrite fmap_cons, not_elem_of_cons.
  intros [Hne Hfs]. rewrite filter_cons_True by done. by rewrite IH.
Qed.

Lemma filter_ident_snoc f (fs : list (@Listener A)) :
  base.filter (λ g, ident g ≠ ident f) (fs ++ [f])
  = base.filter (λ g, ident g ≠ ident f) fs.
Proof.
  rewrite filter_app, filter_cons_False by (by intros ?).
  by rewrite filter_nil, app_nil_r.
Qed.

(** Adding a listener and removing it again leaves, for every type, the
    listeners that do not have its identity. *)
Lemma listeners_remove_add type f doc ty :
  listeners (removeEventListener type f (addEventListener type f doc)) ty
  = if decide (ty = type)
    then base.filter (λ g, ident g ≠ ident f) (listeners doc ty)
    else listeners doc ty.
Proof.
  rewrite listeners_removeEventListener. case_decide as Hty.
  - subst.
    destruct (decide (ident f ∈ ident <$> listeners doc type)) as [Hin|Hfresh].
    + by rewrite listeners_addEventListener_registered.
    + rewrite listeners_addEventListener by done.
      rewrite decide_True by done. apply filter_ident_snoc.
  - by apply listeners_addEventListener_other.
Qed.

(** After [useKeyPress] is mounted and unmounted, the callback is
    registered for no key-press, also when the same function had been
    registered before the mount; every other listener is where it was. *)
Theorem useKeyPress_unmount f doc ty :
  listeners ((useKeyPress f doc).2 (useKeyPress f doc).1) ty
  = if decide (ty = "keypress")
    then base.filter (λ g, ident g ≠ ident f) (listeners doc ty)
    else listeners doc ty.
Proof. unfold useKeyPress. simpl. apply listeners_remove_add. Qed.

(** With [useKey] mounted, a key-down or key-up event runs the listeners
    that were registered and then the callback; an event of another type
    runs only the former. *)
Theorem useKey_dispatch f doc ty e :
  ident f ∉ ident <$> listeners doc "keydown" →
  ident f ∉ ident <$> listeners doc "keyup" →
  dispatchEvent ty e (useKey f doc).1
  = dispatchEvent ty e doc
    ++ (if decide (ty = "keydown" ∨ ty = "keyup") then body f e else []).
Proof.
  intros Hdown Hup. unfold useKey. simpl.
  rewrite dispatchEvent_addEventListener.
  2:{ by rewrite listeners_addEventListener_other. }
  rewrite dispatchEvent_addEventListener by done.
  rewrite <-app_assoc. f_equal.
  destruct (decide (ty = "keydown")) as [Hd|Hd],
           (decide (ty = "keyup")) as [Hu|Hu]; simplify_eq.
  - rewrite decide_True by auto. apply app_nil_r.
  - rewrite decide_True by auto. done.
  - rewrite decide_False by (by intros [?|?]). done.
Qed.

(** After [useKey] is mounted and unmounted, the callback is registered
    neither for key-down nor for key-up; every other listener is where it
    was. *)
Theorem useKey_unmount f doc ty :
  listeners ((useKey f doc).2 (useKey f doc).1) ty
  = if decide (ty = "keydown" ∨ ty = "keyup")
    then base.filter (λ g, ident g ≠ ident f) (listeners doc ty)
    else listeners doc ty.
Proof.
  unfold useKey. simpl.
  rewrite listeners_removeEventListener.
  destruct (decide (ty = "keyup")) as [->|Hup].
  - rewrite decide_True by auto.
    rewrite listeners_removeEventListener, decide_False by done.
    destruct (decide (ident f ∈ ident <$>
                listeners (addEventListener "keydown" f doc) "keyup"))
      as [Hin|Hfresh].
    + rewrite listeners_addEventListener_registered by done.
      by rewrite listeners_addEventListener_other.
    + rewrite listeners_addEventListener by done.
      rewrite decide_True by done. rewrite filter_ident_snoc.
      by rewrite listeners_addEventListener_other.
  - rewrite listeners_removeEventListener.
    rewrite (listeners_addEventListener_other "keyup") by done.
    destruct (decide (ty = "keydown")) as [->|Hdown].
    + rewrite !decide_True by auto.
      destruct (decide (ident f ∈ ident <$> listeners doc "keydown"))
        as [Hin|Hfresh].
      * by rewrite listeners_addEventListener_registered.
      * rewrite listeners_addEventListener by done.
        rewrite decide_True by done. apply filter_ident_snoc.
    + rewrite decide_False by (by intros [?|?]).
      by apply listeners_addEventListener_other.
Qed.

(** With [useMetaKey] mounted, each key-down and key-up event calls the
    callback once, with [true] exactly when shift, meta, alt or control is
    held in the event; events of other types do not call it. *)
Theorem useMetaKey_dispatch fn (callback : bool → list A) doc ty e :
  fn ∉ ident <$> listeners doc "keydown" →
  fn ∉ ident <$> listeners doc "keyup" →
  dispatchEvent ty e (useMetaKey fn callback doc).1
  = dispatchEvent ty e doc
    ++ (if decide (ty = "keydown" ∨ ty = "keyup")
        then callback (bool_decide (shiftKey e ∨ metaKey e ∨ altKey e ∨ ctrlKey e))
        else []).
Proof.
  intros Hdown Hup. unfold useMetaKey, useKey. simpl.
  rewrite dispatchEvent_addEventListener.
  2:{ by rewrite listeners_addEventListener_other. }
  rewrite dispatchEvent_addEventListener by done.
  rewrite <-app_assoc. f_equal. simpl.
  assert (shiftKey e || metaKey e || altKey e || ctrlKey e
          = bool_decide (shiftKey e ∨ metaKey e ∨ altKey e ∨ ctrlKey e)) as ->.
  { by destruct (shiftKey e), (metaKey e), (altKey e), (ctrlKey e). }
  destruct (decide (ty = "keydown")) as [Hd|Hd],
           (decide (ty = "keyup")) as [Hu|Hu]; simplify_eq.
  - rewrite decide_True by auto. apply app_nil_r.
  - rewrite decide_True by auto. done.
  - rewrite decide_False by (by intros [?|?]). done.
Qed.

(** With [useEscapeKey] mounted on any document, an event runs the
    listeners that were registered and then, when it is a key-press with
    key code 27, the callback. *)
Theorem useEscapeKey_dispatch fn (callback : KeyboardEvent → list A) doc ty e :
  fn ∉ ident <$> listeners doc "keypress" →
  dispatchEvent ty e (useEscapeKey fn callback doc).1
  = dispatchEvent ty e doc
    ++ (if decide (ty = "keypress" ∧ keyCode e = 27) then callback e else []).
Proof.
  intros Hfresh. unfold useEscapeKey, useKeyPress. simpl.
  rewrite dispatchEvent_addEventListener by done. f_equal. simpl.
  destruct (decide (ty = "keypress")) as [Hty|Hty].
  - destruct (decide (keyCode e = 27)) as [Hk|Hk].
    + by rewrite decide_True.
    + rewrite decide_False by (by intros [_ ?]). done.
  - rewrite decide_False by (by intros [? _]). done.
Qed.

(** A re-render of [useEscapeKey] (the cleanup of the previous effect,
    then the effect with the function object of the new render) leaves one
    registration: the callback runs once for a key-press with key code
    27, after the listeners that were registered before. *)
Theorem useEscapeKey_rerender fn fn'
    (callback : KeyboardEvent → list A) doc ty e :
  fn ∉ ident <$> listeners doc "keypress" →
  fn' ∉ ident <$> listeners doc "keypress" →
  dispatchEvent ty e
    (useEscapeKey fn' callback
       ((useEscapeKey fn callback doc).2 (useEscapeKey fn callback doc).1)).1
  = dispatchEvent ty e doc
    ++ (if decide (ty = "keypress" ∧ keyCode e = 27) then callback e else []).
Proof.
  intros Hfn Hfn'. unfold useEscapeKey, useKeyPress. simpl.
  set (f := {| ident := fn; body := _ |}).
  assert (∀ ty', listeners
            (removeEventListener "keypress" f
               (addEventListener "keypress" f doc)) ty'
          = listeners doc ty') as Hsame.
  { intros ty'. rewrite listeners_remove_add. case_decide; [|done].
    subst. by apply filter_ident_fresh. }
  rewrite dispatchEvent_addEventListener by (by rewrite Hsame).
  unfold dispatchEvent at 1. rewrite Hsame. f_equal. simpl.
  destruct (decide (ty = "keypress")) as [Hty|Hty].
  - destruct (decide (keyCode e = 27)) as [Hk|Hk].
    + by rewrite decide_True.
    + rewrite decide_False by (by intros [_ ?]). done.
  - rewrite decide_False by (by intros [? _]). done.
Qed.

End keyboard_hooks.

Lemma useKey_dispatch_witness :
  let f := {| ident := 1; body := λ e, [keyCode e] |} in
  ((ident f ∉ (ident <$> listeners sample_document "keydown")) ∧
   (ident f ∉ (ident <$> listeners sample_document "keyup"))) ∧
  dispatchEvent "keyup" sample_event (useKey f sample_document).1
  = dispatchEvent "keyup" sample_event sample_document
    ++ (if decide ("keyup" = "keydown" ∨ "keyup" = "keyup")
        then body f sample_event else []).
Proof.
  split; [split; by_decide|].
  apply (useKey_dispatch {| ident := 1; body := λ e, [keyCode e] |}
           sample_document "keyup" sample_event); by_decide.
Defined.

Lemma useMetaKey_dispatch_witness :
  let callback := λ active : bool, [if active then 1 else -1] in
  ((1%positive ∉ (ident <$> listeners sample_document "keydown")) ∧
   (1%positive ∉ (ident <$> listeners sample_document "keyup"))) ∧
  dispatchEvent "keydown" sample_event
    (useMetaKey 1 callback sample_document).1
  = dispatchEvent "keydown" sample_event sample_document
    ++ (if decide ("keydown" = "keydown" ∨ "keydown" = "keyup")
        then callback (bool_decide (shiftKey sample_event ∨ metaKey sample_event
                                    ∨ altKey sample_event ∨ ctrlKey sample_event))
        else []).
Proof.
  split; [split; by_decide|].
  apply (useMetaKey_dispatch 1 (λ active : bool, [if active then 1 else -1])
           sample_document "keydown" sample_event); by_decide.
Defined.

Lemma useEscapeKey_dispatch_witness :
  let callback := λ e, [keyCode e] in
  (1%positive ∉ (ident <$> listeners sample_document "keypress")) ∧
  dispatchEvent "keypress" sample_event
    (useEscapeKey 1 callback sample_document).1
  = dispatchEvent "keypress" sample_event sample_document
    ++ (if decide ("keypress" = "keypress" ∧ keyCode sample_event = 27)
        then callback sample_event else []).
Proof.
  split; [by_decide|].
  apply (useEscapeKey_dispatch 1 (λ e, [keyCode e])
           sample_document "keypress" sample_event); by_decide.
Defined.

Lemma useEscapeKey_rerender_witness :
  let callback := λ e, [keyCode e] in
  ((1%positive ∉ (ident <$> listeners sample_document "keypress")) ∧
   (3%positive ∉ (ident <$> listeners sample_document "keypress"))) ∧
  dispatchEvent "keypress" sample_event
    (useEscapeKey 3 callback
       ((useEscapeKey 1 callback sample_document).2
          (useEscapeKey 1 callback sample_document).1)).1
  = dispatchEvent "keypress" sample_event sample_document
    ++ (if decide ("keypress" = "keypress" ∧ keyCode sample_event = 27)
        then callback sample_event else []).
Proof.
  split; [split; by_decide|].
  apply (useEscapeKey_rerender 1 3 (λ e, [keyCode e])
           sample_document "keypress" sample_event); by_decide.
Defined.
